(** * greedypacker: the bin manager

    A shallow embedding of [greedypacker/binmanager.py] (class [BinManager])
    and the properties of its configuration, item queue, bin factory and the
    two bin-selection policies.

    Python integers are unbounded, so item and bin dimensions are [Z].
    Items are mutable objects that the queue and the bins share, hence the
    queue holds references into a heap of items.  The manager and the heap
    together form the mutable world that every method runs in; an exception
    leaves the world as it was at the [raise]. *)

From Stdlib Require Import ZArith Lia.
From stdpp Require Import base list strings sorting.

Open Scope string_scope.
Open Scope list_scope.
Open Scope Z_scope.

(** ** Items *)

Definition ItemRef := nat.

(** Modelled from the spec: the module [item] is not among the sources.
    Section 3 of the specification gives an item a requested width and
    height and the placement fields x, y and rotated; the manager itself
    reads [width] and [height] only. *)
Record Item := mkItem {
  width : Z;
  height : Z;
  pos_x : Z;
  pos_y : Z;
  rotated : bool
}.

Definition Heap := ItemRef → Item.

(** ** Exceptions and the outcome of a call *)

Inductive exn :=
  | ValueError (msg : string)
  | AttributeError (msg : string)
  | IndexError (msg : string).

Inductive outcome (A : Type) :=
  | Return (a : A)
  | Raise (e : exn).
Arguments Return {A} a.
Arguments Raise {A} e.

(** State and exception monad: a computation maps the state before the call
    to the state after it and either a value or the exception raised. *)
Definition M (S A : Type) : Type := S → S * outcome A.

Definition ret {S A} (a : A) : M S A := λ s, (s, Return a).
Definition raise {S A} (e : exn) : M S A := λ s, (s, Raise e).
Definition bind {S A B} (c : M S A) (k : A → M S B) : M S B :=
  λ s, match c s with
       | (s', Return a) => k a s'
       | (s', Raise e) => (s', Raise e)
       end.

Notation "c ;;; k" := (bind c (λ _, k))
  (at level 100, right associativity, only parsing).

(** [for item in l: body(item)] *)
Fixpoint for_each {S A} (body : A → M S unit) (l : list A) : M S unit :=
  match l with
  | [] => ret tt
  | a :: l' => body a ;;; for_each body l'
  end.

(** ** The placement backends

    The modules [shelf], [guillotine], [maximal_rectangles] and [skyline]
    are imported by the manager and are not among the sources.  The manager
    is therefore parameterised by what it uses of them: the four
    constructors, [insert], the free-space enumerations and the feasibility
    queries.  The queries are read-only (section 6 of the specification), so
    they are functions of the bin; [insert] may change the bin and the item
    whether it succeeds or not. *)
Class Backend := {
  Bin : Type;
  Segment : Type;
  FreeRectangle : Type;
  ShelfT : Type;
  (* constructors, with the arguments [_bin_factory] passes *)
  Guillotine : Z → Z → bool → bool → string → Bin;
  Sheet : Z → Z → bool → bool → Bin;
  MaximalRectangle : Z → Z → bool → Bin;
  Skyline : Z → Z → bool → Bin;
  (* binn.insert(item, heuristic) *)
  insert : Bin → Heap → ItemRef → string → bool * Bin * Heap;
  (* skyline bins *)
  skyline : Bin → list Segment;
  check_fit : Bin → Z → Z → nat → bool * Z;
  (* guillotine and maximal-rectangle bins *)
  freerects : Bin → list FreeRectangle;
  item_fits_rect : Bin → Item → FreeRectangle → bool;
  rect_area : FreeRectangle → Z;
  (* shelf bins *)
  shelves : Bin → list ShelfT;
  item_fits_shelf : Bin → Item → ShelfT → bool;
  shelf_area : ShelfT → Z;
  bin_x : Bin → Z;
  available_height : Bin → Z
}.

(** ** Stable descending sort

    [list.sort(key=..., reverse=True)] is a stable sort: the result is
    ordered by descending key and elements with equal keys keep their
    order.  These properties determine the result, so the sort is modelled
    by a stable insertion sort. *)
Section Sort.
Context {A : Type} (key : A → Z).

Fixpoint insert_desc (a : A) (l : list A) : list A :=
  match l with
  | [] => [a]
  | b :: l' => if key a <? key b then b :: insert_desc a l' else a :: b :: l'
  end.

Definition sort_desc (l : list A) : list A := foldr insert_desc [] l.
End Sort.

(** ** The manager *)

(** [self.bin_sel_algo] holds one of the two bound methods. *)
Inductive policy := BestFit | FirstFit.

Section Manager.
Context `{B : Backend}.

Record BinManager := mkBinManager {
  bin_width : Z;
  bin_height : Z;
  items : list ItemRef;
  bin_count : Z;
  (* [None]: the attribute was never assigned *)
  bin_sel_algo : option policy;
  heuristic : string;
  algorithm : string;
  split_heuristic : string;
  sorting : bool;
  rotation : bool;
  rectangle_merge : bool;
  wastemap : bool;
  bins : list Bin
}.

Definition set_items (its : list ItemRef) (m : BinManager) : BinManager :=
  mkBinManager (bin_width m) (bin_height m) its (bin_count m)
    (bin_sel_algo m) (heuristic m) (algorithm m) (split_heuristic m)
    (sorting m) (rotation m) (rectangle_merge m) (wastemap m) (bins m).

Definition set_bins (bs : list Bin) (m : BinManager) : BinManager :=
  mkBinManager (bin_width m) (bin_height m) (items m) (bin_count m)
    (bin_sel_algo m) (heuristic m) (algorithm m) (split_heuristic m)
    (sorting m) (rotation m) (rectangle_merge m) (wastemap m) bs.

Record World := mkWorld {
  self : BinManager;
  heap : Heap
}.

(** *** [_bin_factory] *)
Definition _bin_factory (m : BinManager) : outcome Bin :=
  if String.eqb (algorithm m) "guillotine" then
    Return (Guillotine (bin_width m) (bin_height m) (rotation m)
              (rectangle_merge m) (split_heuristic m))
  else if String.eqb (algorithm m) "shelf" then
    Return (Sheet (bin_width m) (bin_height m) (rotation m) (wastemap m))
  else if String.eqb (algorithm m) "maximal_rectangle" then
    Return (MaximalRectangle (bin_width m) (bin_height m) (rotation m))
  else if String.eqb (algorithm m) "skyline" then
    Return (Skyline (bin_width m) (bin_height m) (rotation m))
  else Raise (ValueError "Error: No such Algorithm").

(** *** [__init__]

    The attributes are assigned in the order of the source; the factory
    runs last, on the object whose [bins] attribute is still missing
    (modelled by the empty list, which the factory does not read). *)
Definition __init__ (bin_width bin_height : Z)
    (bin_algo pack_algo heuristic split_heuristic : string)
    (sorting rotation rectangle_merge wastemap : bool) : outcome BinManager :=
  let sel :=
    if String.eqb bin_algo "bin_best_fit" then Some BestFit
    else if String.eqb bin_algo "bin_first_fit" then Some FirstFit
    else None in
  let m := mkBinManager bin_width bin_height [] 0 sel heuristic pack_algo
             split_heuristic sorting rotation rectangle_merge wastemap [] in
  match _bin_factory m with
  | Return defaultBin => Return (set_bins [defaultBin] m)
  | Raise e => Raise e
  end.

(** *** [add_items] *)
Definition area_key (h : Heap) (r : ItemRef) : Z :=
  width (h r) * height (h r).

Definition add_items (batch : list ItemRef) (w : World) : World :=
  let appended := foldl (λ q item, q ++ [item]) (items (self w)) batch in
  let queue :=
    if sorting (self w) then sort_desc (area_key (heap w)) appended
    else appended in
  mkWorld (set_items queue (self w)) (heap w).

(** *** [_bin_first_fit] *)

(** The [for binn in self.bins] loop: every bin tried is replaced by its
    state after the attempt; the loop stops at the first success.  The
    boolean is the variable [result] after the loop. *)
Fixpoint first_fit_loop (bs : list Bin) (h : Heap) (item : ItemRef)
    (heur : string) : bool * list Bin * Heap :=
  match bs with
  | [] => (false, [], h)
  | binn :: rest =>
      let '(result, binn', h') := insert binn h item heur in
      if result then (true, binn' :: rest, h')
      else
        let '(result', rest', h'') := first_fit_loop rest h' item heur in
        (result', binn' :: rest', h'')
  end.

(** [self.bins.append(self._bin_factory())] followed by
    [self.bins[-1].insert(item, self.heuristic)], whose result is
    dropped. *)
Definition open_new_bin (item : ItemRef) : M World unit := λ w,
  match _bin_factory (self w) with
  | Raise e => (w, Raise e)
  | Return fresh =>
      let '(_, fresh', h') := insert fresh (heap w) item (heuristic (self w)) in
      (mkWorld (set_bins (bins (self w) ++ [fresh']) (self w)) h', Return tt)
  end.

Definition _bin_first_fit (item : ItemRef) : M World unit := λ w,
  let '(result, bs', h') :=
    first_fit_loop (bins (self w)) (heap w) item (heuristic (self w)) in
  let w' := mkWorld (set_bins bs' (self w)) h' in
  if result then (w', Return tt) else open_new_bin item w'.

(** *** [_bin_best_fit] *)

(** The variable [item_fits] after lines 101-105. *)
Definition item_fits (m : BinManager) (it : Item) : bool :=
  let item_fits := false in
  let item_fits :=
    if (width it <=? bin_width m) || (height it >=? bin_height m)
    then true else item_fits in
  let item_fits :=
    if rotation m &&
       ((height it <=? bin_width m) || (width it >=? bin_height m))
    then true else item_fits in
  item_fits.

(** [float('inf')] is [None]; [v < best] for an integer [v]. *)
Definition below (v : Z) (best : option Z) : bool :=
  match best with
  | None => true
  | Some b => v <? b
  end.

(** [enumerate(l)] *)
Definition enumerate {A} (l : list A) : list (nat * A) := imap pair l.

(** Skyline scoring.  The state is [(best_y, best_bin)]; [best_bin] refers
    to a bin object of [self.bins] and is modelled by its position. *)
Definition skyline_step (it : Item) (k : nat) (binn : Bin)
    (st : option Z * option nat) (i : nat) : option Z * option nat :=
  let '(fits, y) := check_fit binn (width it) (height it) i in
  let st := if fits && below y st.1 then (Some y, Some k) else st in
  let '(fits, y) := check_fit binn (height it) (width it) i in
  if fits && below y st.1 then (Some y, Some k) else st.

Definition skyline_scan (it : Item) (bs : list Bin) : option Z * option nat :=
  foldl (λ st '(k, binn),
           foldl (skyline_step it k binn) st
             (seq 0 (length (skyline binn))))
        (None, None) (enumerate bs).

(** Guillotine and maximal-rectangle scoring.  The state is
    [(best_rect, best_bin_index, i)], where [i] is the loop variable, which
    stays bound after the loop ([None] while it is unbound). *)
Definition first_fitting_rect (it : Item) (binn : Bin) : option FreeRectangle :=
  List.find (item_fits_rect binn it) (freerects binn).

Definition rect_step (it : Item)
    (st : option FreeRectangle * option nat * option nat)
    (ib : nat * Bin) : option FreeRectangle * option nat * option nat :=
  let '(best_rect, best_bin_index, _) := st in
  let '(i, binn) := ib in
  match first_fitting_rect it binn with
  | None => (best_rect, best_bin_index, Some i)
  | Some best_in_bin =>
      match best_rect with
      | None => (Some best_in_bin, Some i, Some i)
      | Some br =>
          if rect_area best_in_bin <? rect_area br
          then (Some best_in_bin, Some i, Some i)
          else (best_rect, best_bin_index, Some i)
      end
  end.

Definition rect_scan (it : Item) (bs : list Bin)
    : option FreeRectangle * option nat * option nat :=
  foldl (rect_step it) (None, None, None) (enumerate bs).

(** Shelf scoring.  [area] is [None] or a number; [if area and ...] also
    rejects the number 0. *)
Definition shelf_candidate (it : Item) (binn : Bin) : option Z :=
  let area := shelf_area <$> List.find (item_fits_shelf binn it) (shelves binn) in
  if ((width it <=? bin_x binn) && (height it <=? available_height binn))
     || ((height it <=? bin_x binn) && (width it <=? available_height binn))
  then Some (bin_x binn * available_height binn)
  else area.

Definition shelf_step (it : Item) (st : option Z * option nat)
    (ib : nat * Bin) : option Z * option nat :=
  let '(i, binn) := ib in
  match shelf_candidate it binn with
  | Some area =>
      if negb (area =? 0) && below area st.1 then (Some area, Some i) else st
  | None => st
  end.

Definition shelf_scan (it : Item) (bs : list Bin) : option Z * option nat :=
  foldl (shelf_step it) (None, None) (enumerate bs).

(** [self.bins[k].insert(item, self.heuristic)], returning its result. *)
Definition insert_at (k : nat) (item : ItemRef) : M World bool := λ w,
  match bins (self w) !! k with
  | None => (w, Raise (IndexError "list index out of range"))
  | Some binn =>
      let '(result, binn', h') := insert binn (heap w) item (heuristic (self w)) in
      (mkWorld (set_bins (<[k := binn']> (bins (self w))) (self w)) h',
       Return result)
  end.

(** The three scoring branches.  Each yields the bin position whose
    [insert] result the method returns, or [None] when control falls
    through to the code after the branch.  Bin and rectangle objects are
    truthy, so [if best_bin] and [if best_rect] test for [None]. *)
Definition skyline_branch (m : BinManager) (it : Item) : option nat :=
  if String.eqb (algorithm m) "skyline" then (skyline_scan it (bins m)).2
  else None.

Definition rect_branch (m : BinManager) (it : Item) : option nat :=
  if String.eqb (algorithm m) "guillotine"
     || String.eqb (algorithm m) "maximal_rectangle"
  then
    let '(best_rect, best_bin_index, i) := rect_scan it (bins m) in
    match best_rect with
    | Some _ => i
    | None => None
    end
  else None.

Definition shelf_branch (m : BinManager) (it : Item) : option nat :=
  if String.eqb (algorithm m) "shelf" then (shelf_scan it (bins m)).2
  else None.

Definition oversize : exn := ValueError "Error! item too big for bin".

Definition _bin_best_fit (item : ItemRef) : M World bool := λ w,
  let m := self w in
  let it := heap w item in
  if negb (item_fits m it) then raise oversize w
  else
    match skyline_branch m it with
    | Some k => insert_at k item w
    | None =>
    match rect_branch m it with
    | Some k => insert_at k item w
    | None =>
    match shelf_branch m it with
    | Some k => insert_at k item w
    | None => (open_new_bin item ;;; ret true) w
    end end end.

(** *** [execute] *)

(** [self.bin_sel_algo(item)] *)
Definition call_bin_sel_algo (item : ItemRef) : M World unit := λ w,
  match bin_sel_algo (self w) with
  | None =>
      raise (AttributeError "'BinManager' object has no attribute 'bin_sel_algo'") w
  | Some BestFit => (_bin_best_fit item ;;; ret tt) w
  | Some FirstFit => _bin_first_fit item w
  end.

Definition execute : M World unit := λ w,
  for_each call_bin_sel_algo (items (self w)) w.

End Manager.

(** ** Vocabulary of the properties *)

(** Ordered by descending key. *)
Definition descending {A} (key : A → Z) : list A → Prop :=
  StronglySorted (λ a b, key b ≤ key a).

(** The four algorithm names the factory knows. *)
Definition recognized_names : list string :=
  ["shelf"; "guillotine"; "maximal_rectangle"; "skyline"].

Definition no_such_algorithm : exn := ValueError "Error: No such Algorithm".

(** The exception of [self.bin_sel_algo] when the attribute is missing. *)
Definition no_policy : exn :=
  AttributeError "'BinManager' object has no attribute 'bin_sel_algo'".

(** The feasibility test in the words of the specification: the item fits
    as given when both its dimensions are within the bin's, and rotated
    when the swapped dimensions are; the rotated orientation counts only
    with the rotation flag. *)
Definition fits_allowed (bw bh : Z) (rot : bool) (it : Item) : bool :=
  ((width it <=? bw) && (height it <=? bh))
  || (rot && ((height it <=? bw) && (width it <=? bh))).

(** A ghost log: [traced body] runs [body] and records the element it was
    called on, whether the call returns or raises. *)
Definition traced {S A} (body : A → M S unit) : A → M (S * list A) unit :=
  λ a sl,
    let '(s', r) := body a sl.1 in
    ((s', sl.2 ++ [a]), r).

Section Vocabulary.
Context `{B : Backend}.

(** [m'] differs from [m] in its bins at most. *)
Definition same_config (m m' : BinManager) : Prop :=
  m' = set_bins (bins m') m.

(** *** Reachable worlds *)
Inductive reachable : World → Prop :=
  | reach_init bw bh bin_algo pack_algo heur split srt rot merge waste m h :
      __init__ bw bh bin_algo pack_algo heur split srt rot merge waste
      = Return m →
      reachable (mkWorld m h)
  | reach_add_items batch w :
      reachable w → reachable (add_items batch w)
  | reach_execute w :
      reachable w → reachable (execute w).1
  | reach_first_fit item w :
      reachable w → reachable (_bin_first_fit item w).1
  | reach_best_fit item w :
      reachable w → reachable (_bin_best_fit item w).1
  | reach_heap w h :
      reachable w → reachable (mkWorld (self w) h).

(** [refused item heur bs h bs' h']: tried one after the other from heap
    [h], every bin of [bs] refuses the item; [bs'] and [h'] are the bins
    and the heap after the attempts. *)
Inductive refused (item : ItemRef) (heur : string)
    : list Bin → Heap → list Bin → Heap → Prop :=
  | refused_nil h : refused item heur [] h [] h
  | refused_cons b bs h b' h' bs' h'' :
      insert b h item heur = (false, b', h') →
      refused item heur bs h' bs' h'' →
      refused item heur (b :: bs) h (b' :: bs') h''.

(** The feasible placements in the order the loops meet them: bins in
    list order, segments in order, the given orientation before the
    swapped one.  Each is the position of its bin and the reported y. *)
Definition seg_candidates (it : Item) (k : nat) (binn : Bin) (i : nat)
    : list (nat * Z) :=
  (let '(fits, y) := check_fit binn (width it) (height it) i in
   if fits then [(k, y)] else [])
  ++
  (let '(fits, y) := check_fit binn (height it) (width it) i in
   if fits then [(k, y)] else []).

Definition candidates (it : Item) (bs : list Bin) : list (nat * Z) :=
  flat_map (λ '(k, binn),
              flat_map (seg_candidates it k binn)
                (seq 0 (length (skyline binn))))
           (enumerate bs).

(** [if fits and y < best_y: best_y = y; best_bin = binn] *)
Definition keep_lower (st : option Z * option nat) (c : nat * Z)
    : option Z * option nat :=
  if below c.2 st.1 then (Some c.2, Some c.1) else st.

(** The bins that offer the item a non-zero area in the shelf scoring, in
    list order, each with its position and that area. *)
Definition shelf_offer (it : Item) (ib : nat * Bin) : list (nat * Z) :=
  match shelf_candidate it ib.2 with
  | Some area => if area =? 0 then [] else [(ib.1, area)]
  | None => []
  end.

Definition shelf_candidates (it : Item) (bs : list Bin) : list (nat * Z) :=
  flat_map (shelf_offer it) (enumerate bs).

(** The bins that have a free rectangle the item fits, in list order, each
    with its position and the first such rectangle. *)
Definition rect_offer (it : Item) (ib : nat * Bin)
    : list (nat * FreeRectangle) :=
  match first_fitting_rect it ib.2 with
  | Some rect => [(ib.1, rect)]
  | None => []
  end.

Definition rect_candidates (it : Item) (bs : list Bin)
    : list (nat * FreeRectangle) :=
  flat_map (rect_offer it) (enumerate bs).

(** The value of the loop variable of [for i, binn in enumerate(bs)] after
    the loop. *)
Definition last_index (bs : list Bin) : option nat :=
  match bs with
  | [] => None
  | _ :: bs' => Some (length bs')
  end.

(** The method bound in [self.bin_sel_algo], as [execute] calls it: the
    value the method returns is dropped. *)
Definition policy_call (p : policy) (item : ItemRef) : M World unit :=
  match p with
  | BestFit => _bin_best_fit item ;;; ret tt
  | FirstFit => _bin_first_fit item
  end.


(** C9 as worded: the policy is called on every item of the queue; the
    calls made are those the ghost log records. *)
Definition every_item_handled (p : policy) (w : World) : Prop :=
  (for_each (traced (policy_call p)) (items (self w)) (w, [])).1.2
  = items (self w).

End Vocabulary.

(** ** A table-driven backend

    Modelled from the spec: the backend modules are not among the sources
    and section 6 fixes their contract only.  To run the manager on
    concrete inputs, a bin of this backend carries the answers to the
    manager's queries: its skyline segments and [check_fit] table, its free
    rectangles and shelves with their dimensions, and which items its
    [insert] accepts.  [insert] records the accepted item and leaves the
    item untouched. *)
Module Scripted.

Record SBin := mkSBin {
  sb_segments : list unit;
  sb_check_fit : Z → Z → nat → bool * Z;
  sb_freerects : list (Z * Z);
  sb_shelves : list (Z * Z);
  sb_x : Z;
  sb_available_height : Z;
  sb_accepts : Item → bool;
  sb_placed : list ItemRef
}.

Definition fits_dims (it : Item) (wh : Z * Z) : bool :=
  (width it <=? wh.1) && (height it <=? wh.2).

Definition sb_insert (b : SBin) (h : Heap) (item : ItemRef) (heur : string)
    : bool * SBin * Heap :=
  if sb_accepts b (h item)
  then (true,
        mkSBin (sb_segments b) (sb_check_fit b) (sb_freerects b)
          (sb_shelves b) (sb_x b) (sb_available_height b) (sb_accepts b)
          (sb_placed b ++ [item]),
        h)
  else (false, b, h).

(** An empty bin of the given dimensions: one skyline segment at height 0,
    one free rectangle, no shelf yet. *)
Definition empty (w h : Z) (rot : bool) : SBin :=
  mkSBin [()]
    (λ iw ih i, ((i =? 0)%nat && (iw <=? w) && (ih <=? h), ih))
    [(w, h)] [] w h
    (λ it, fits_dims it (w, h)
           || rot && (height it <=? w) && (width it <=? h))
    [].

#[export] Instance backend : Backend := {|
  Bin := SBin;
  Segment := unit;
  FreeRectangle := Z * Z;
  ShelfT := Z * Z;
  Guillotine := λ w h rot _ _, empty w h rot;
  Sheet := λ w h rot _, empty w h rot;
  MaximalRectangle := empty;
  Skyline := empty;
  insert := sb_insert;
  skyline := sb_segments;
  check_fit := sb_check_fit;
  freerects := sb_freerects;
  item_fits_rect := λ _ it r, fits_dims it r;
  rect_area := λ r, r.1 * r.2;
  shelves := sb_shelves;
  item_fits_shelf := λ _ it s, fits_dims it s;
  shelf_area := λ s, s.1 * s.2;
  bin_x := sb_x;
  available_height := sb_available_height
|}.

(** An item of the given size that was not placed yet. *)
Definition unplaced (w h : Z) : Item := mkItem w h 0 0 false.

End Scripted.

(** ** Concrete bins and worlds *)
Module Concrete.
Import Scripted.

(** A best-fit manager for 4 by 4 bins over the given bins. *)
Definition manager_4x4 (pack_algo : string) (rot : bool) (bs : list SBin)
    : BinManager :=
  mkBinManager 4 4 [] 0 (Some BestFit) "default" pack_algo "default"
    true rot true true bs.

(** A bin whose only free rectangle is a 2 by 2 hole. *)
Definition bin_with_hole : SBin :=
  mkSBin [] (λ _ _ _, (false, 0)) [(2, 2)] [] 0 0
    (λ it, fits_dims it (2, 2)) [].

Definition world_two_bins : World :=
  mkWorld (manager_4x4 "guillotine" true [bin_with_hole; empty 4 4 true])
    (λ _, unplaced 2 2).

(** A skyline bin of two segments on which only a rectangle 2 wide and 3
    high fits, on segment 0, reaching y = 4.  Created without rotation, its
    [insert] refuses the item 3 by 2, which would have to be turned. *)
Definition skyline_bin_upright_only : SBin :=
  mkSBin [(); ()]
    (λ iw ih i, ((iw =? 2) && (ih =? 3) && (i =? 0)%nat, 4))
    [] [] 0 0 (λ _, false) [].

(** A shelf bin with 4 by 2 left for a new shelf, created without
    rotation. *)
Definition shelf_bin_low : SBin :=
  mkSBin [] (λ _ _ _, (false, 0)) [] [] 4 2
    (λ it, fits_dims it (4, 2)) [].

(** Two skyline bins: the item 2 by 1 reaches y = 3 on segment 1 of the
    first bin and on segment 0 of the second, where it also fits turned,
    reaching y = 5. *)
Definition skyline_bin_a : SBin :=
  mkSBin [(); ()]
    (λ iw ih i, ((iw =? 2) && (ih =? 1) && (i =? 1)%nat, 3))
    [] [] 0 0 (λ _, true) [].

Definition skyline_bin_b : SBin :=
  mkSBin [()]
    (λ iw ih i, if (iw =? 2) && (ih =? 1) then (true, 3)
                else if (iw =? 1) && (ih =? 2) then (true, 5)
                else (false, 0))
    [] [] 0 0 (λ _, true) [].

Definition world_skyline_tie : World :=
  mkWorld (manager_4x4 "skyline" true [skyline_bin_a; skyline_bin_b])
    (λ _, unplaced 2 1).

(** Shelf bins: an empty 4 by 4 bin, offering 16, before a bin with 4 by 2
    left, offering 8. *)
Definition world_two_shelf_bins : World :=
  mkWorld (manager_4x4 "shelf" false [empty 4 4 false; shelf_bin_low])
    (λ _, unplaced 2 2).

(** A first-fit manager with two items queued: the first fits the bin, the
    second does not. *)
Definition world_first_fit_queue : World :=
  mkWorld
    (mkBinManager 4 4 [0%nat; 1%nat] 0 (Some FirstFit) "default" "guillotine"
       "default" true true true true [empty 4 4 true])
    (λ r, match r with O => unplaced 2 2 | _ => unplaced 5 5 end).

(** A best-fit shelf manager without rotation with the item 5 by 1
    queued. *)
Definition world_oversize_queued : World :=
  add_items [0%nat]
    (mkWorld (manager_4x4 "shelf" false [empty 4 4 false])
       (λ _, unplaced 5 1)).


(** A best-fit shelf manager without rotation whose queue holds the item
    5 by 1 and then the item 1 by 1. *)
Definition world_oversize_then_small : World :=
  mkWorld
    (mkBinManager 4 4 [0%nat; 1%nat] 0 (Some BestFit) "default" "shelf"
       "default" true false true true [empty 4 4 false])
    (λ r, match r with O => unplaced 5 1 | _ => unplaced 1 1 end).

(** Five items of areas 1, 6, 6, 0 and 16, and a sorting manager with an
    empty queue. *)
Definition heap_mixed : Heap :=
  λ r, match r with
       | 0%nat => unplaced 1 1
       | 1%nat => unplaced 2 3
       | 2%nat => unplaced 3 2
       | 3%nat => unplaced 0 5
       | _ => unplaced 4 4
       end.

Definition world_mixed : World :=
  mkWorld (manager_4x4 "guillotine" true [empty 4 4 true]) heap_mixed.

End Concrete.

(** * Properties *)

(** ** The sort *)
Section SortFacts.
Context {A : Type} (key : A → Z).

Lemma insert_desc_perm a l : insert_desc key a l ≡ₚ a :: l.
Proof.
  induction l as [|b l IH]; simpl; [done|].
  destruct (key a <? key b); [|done].
  rewrite IH. apply Permutation_swap.
Qed.

Lemma sort_desc_perm l : sort_desc key l ≡ₚ l.
Proof.
  induction l as [|a l IH]; simpl; [done|].
  rewrite insert_desc_perm. by f_equiv.
Qed.

Lemma insert_desc_descending a l :
  descending key l → descending key (insert_desc key a l).
Proof.
  induction 1 as [|b l Hl IH Hb]; simpl.
  - repeat constructor.
  - destruct (Z.ltb_spec (key a) (key b)) as [Hlt|Hge].
    + constructor; [done|].
      rewrite insert_desc_perm. constructor; [lia|done].
    + constructor; [by constructor|].
      constructor; [done|].
      eapply Forall_impl; [exact Hb|]. simpl. intros c Hc. lia.
Qed.

Lemma sort_desc_descending l : descending key (sort_desc key l).
Proof.
  induction l as [|a l IH]; simpl; [constructor|].
  by apply insert_desc_descending.
Qed.

(** Stability: the elements of any one key keep their order. *)
Lemma insert_desc_stable k a l :
  filter (λ c, key c = k) (insert_desc key a l)
  = filter (λ c, key c = k) (a :: l).
Proof.
  induction l as [|b l IH]; simpl; [done|].
  destruct (Z.ltb_spec (key a) (key b)) as [Hlt|Hge]; [|done].
  rewrite filter_cons, IH, !filter_cons.
  repeat case_decide; try done; lia.
Qed.

Lemma sort_desc_stable k l :
  filter (λ c, key c = k) (sort_desc key l) = filter (λ c, key c = k) l.
Proof.
  induction l as [|a l IH]; simpl; [done|].
  rewrite insert_desc_stable, !filter_cons, IH. done.
Qed.

(** The three properties leave no choice: a descending list with the
    same per-key subsequences as [l] is [sort_desc key l], whatever
    algorithm produced it. *)
Lemma descending_stable_unique l1 l2 :
  descending key l1 → descending key l2 →
  (∀ k, filter (λ c, key c = k) l1 = filter (λ c, key c = k) l2) →
  l1 = l2.
Proof.
  intros H1. revert l2.
  induction H1 as [|a l1 Hl1 IH Ha]; intros l2 H2 Hf.
  - destruct l2 as [|b l2]; [done|].
    specialize (Hf (key b)). rewrite filter_cons_True in Hf by done.
    by rewrite filter_nil in Hf.
  - destruct H2 as [|b l2 Hl2 Hb].
    { specialize (Hf (key a)). rewrite filter_cons_True in Hf by done.
      by rewrite filter_nil in Hf. }
    assert (key a = key b) as Hab.
    { assert (a ∈ b :: l2) as Ha2.
      { eapply (list_elem_of_filter (λ c, key c = key a)).
        rewrite <- Hf, filter_cons_True by done. left. }
      assert (b ∈ a :: l1) as Hb1.
      { eapply (list_elem_of_filter (λ c, key c = key b)).
        rewrite Hf, filter_cons_True by done. left. }
      rewrite Forall_forall in Ha, Hb.
      apply elem_of_cons in Ha2 as [->|Ha2]; [done|].
      apply elem_of_cons in Hb1 as [->|Hb1]; [done|].
      specialize (Ha _ Hb1). specialize (Hb _ Ha2). lia. }
    assert (a = b) as ->.
    { specialize (Hf (key a)).
      rewrite filter_cons_True in Hf by done.
      rewrite filter_cons_True in Hf by done.
      congruence. }
    f_equal. apply IH; [done|]. intros k. specialize (Hf k).
    rewrite !filter_cons in Hf. case_decide; congruence.
Qed.

Lemma descending_after l1 a l2 :
  descending key (l1 ++ a :: l2) → Forall (λ c, key c ≤ key a) l2.
Proof.
  intros Hs. apply StronglySorted_app_1_r in Hs.
  by inversion Hs.
Qed.
End SortFacts.

(** ** Configuration, factory and queue *)

Section ConfigFacts.
Context `{B : Backend}.

Lemma foldl_append (q batch : list ItemRef) :
  foldl (λ q item, q ++ [item]) q batch = q ++ batch.
Proof.
  revert q. induction batch as [|a batch IH]; intros q; simpl.
  - by rewrite app_nil_r.
  - by rewrite IH, <- app_assoc.
Qed.

Lemma add_items_queue batch w :
  items (self (add_items batch w))
  = if sorting (self w)
    then sort_desc (area_key (heap w)) (items (self w) ++ batch)
    else items (self w) ++ batch.
Proof. unfold add_items. simpl. by rewrite foldl_append. Qed.

Lemma factory_raises_iff m :
  _bin_factory m = Raise no_such_algorithm ↔ algorithm m ∉ recognized_names.
Proof.
  unfold _bin_factory, recognized_names.
  repeat match goal with
         | |- context [String.eqb ?a ?b] =>
             destruct (String.eqb_spec a b) as [E|?];
               [rewrite E; split; [done|];
                intros Hn; exfalso; apply Hn;
                rewrite !elem_of_cons; tauto|]
         end.
  split; [|done]. intros _.
  rewrite !not_elem_of_cons. repeat split; try done. apply not_elem_of_nil.
Qed.

Lemma factory_result m :
  _bin_factory m = Raise no_such_algorithm ∨ ∃ b, _bin_factory m = Return b.
Proof.
  unfold _bin_factory.
  repeat match goal with
         | |- context [String.eqb ?a ?b] => destruct (String.eqb a b)
         end; eauto.
Qed.

(** C7: the factory raises the invalid-configuration error exactly for
    the names outside the four recognised ones; for each recognised name
    it returns the bin the constructor of that variant builds from the
    configured dimensions and the flags of the variant; and constructing
    a manager fails in exactly the same cases, since [__init__] runs the
    factory. *)
Theorem bin_factory_spec (m : BinManager) :
  (_bin_factory m = Raise no_such_algorithm
     ↔ algorithm m ∉ recognized_names) ∧
  (algorithm m = "guillotine" →
     _bin_factory m
     = Return (Guillotine (bin_width m) (bin_height m) (rotation m)
                 (rectangle_merge m) (split_heuristic m))) ∧
  (algorithm m = "shelf" →
     _bin_factory m
     = Return (Sheet (bin_width m) (bin_height m) (rotation m) (wastemap m))) ∧
  (algorithm m = "maximal_rectangle" →
     _bin_factory m
     = Return (MaximalRectangle (bin_width m) (bin_height m) (rotation m))) ∧
  (algorithm m = "skyline" →
     _bin_factory m
     = Return (Skyline (bin_width m) (bin_height m) (rotation m))) ∧
  (∀ bw bh bin_algo pack_algo heur split srt rot merge waste,
     (__init__ bw bh bin_algo pack_algo heur split srt rot merge waste
      = Raise no_such_algorithm
        ↔ pack_algo ∉ recognized_names) ∧
     (pack_algo ∈ recognized_names →
      ∃ m0 defaultBin,
        __init__ bw bh bin_algo pack_algo heur split srt rot merge waste
        = Return m0 ∧
        _bin_factory m0 = Return defaultBin ∧
        bins m0 = [defaultBin] ∧ items m0 = [] ∧ bin_count m0 = 0)).
Proof.
  split; [apply factory_raises_iff|].
  split; [intros E; unfold _bin_factory; by rewrite E|].
  split; [intros E; unfold _bin_factory; by rewrite E|].
  split; [intros E; unfold _bin_factory; by rewrite E|].
  split; [intros E; unfold _bin_factory; by rewrite E|].
  intros bw bh bin_algo pack_algo heur split srt rot merge waste.
  unfold __init__.
  match goal with
  | |- context [_bin_factory ?m0] =>
      pose proof (factory_raises_iff m0) as Hf;
      destruct (factory_result m0) as [E|[b E]]; rewrite E in *
  end; simpl in *.
  - split; [tauto|]. intros Hin. exfalso. by apply Hf.
  - split.
    + split; [done|]. intros Hn. by apply Hf in Hn.
    + intros _. eexists _, b. split; [done|]. split; [exact E|done].
Qed.

(** C6: [add_items] appends the batch in call order; with sorting
    enabled the whole queue is then a permutation of that sequence in
    descending order of width times height, in which the items of any one
    area keep their order, and nothing larger follows an item of area zero
    (with non-negative areas, only items of area zero follow it). *)
Theorem add_items_stable_sort (batch : list ItemRef) (w : World) :
  let key := λ r : ItemRef, width (heap w r) * height (heap w r) in
  let submitted := items (self w) ++ batch in
  let queue := items (self (add_items batch w)) in
  (sorting (self w) = false → queue = submitted) ∧
  (sorting (self w) = true →
     queue ≡ₚ submitted ∧
     descending key queue ∧
     (∀ k, filter (λ r, key r = k) queue
           = filter (λ r, key r = k) submitted) ∧
     (∀ l1 z l2, queue = l1 ++ z :: l2 → key z = 0 →
        Forall (λ r, key r ≤ 0) l2 ∧
        (Forall (λ r, 0 ≤ key r) submitted →
         Forall (λ r, key r = 0) l2))).
Proof.
  intros key submitted queue. subst queue.
  rewrite add_items_queue. fold submitted.
  change (area_key (heap w)) with key.
  split; intros ->; [done|].
  split; [apply sort_desc_perm|].
  split; [apply sort_desc_descending|].
  split; [intros k; apply sort_desc_stable|].
  intros l1 z l2 Hq Hz.
  pose proof (sort_desc_descending key submitted) as Hs.
  rewrite Hq in Hs. apply descending_after in Hs. rewrite Hz in Hs.
  split; [done|]. intros Hpos.
  assert (Forall (λ r, 0 ≤ key r) l2) as Hpos2.
  { rewrite <- (sort_desc_perm key), Hq in Hpos.
    rewrite Forall_app, Forall_cons in Hpos. tauto. }
  rewrite Forall_forall in Hs, Hpos2. apply Forall_forall.
  intros r Hr. specialize (Hs r Hr). specialize (Hpos2 r Hr). lia.
Qed.

End ConfigFacts.

(** ** What the policies leave alone *)
Section Frame.
Context `{B : Backend}.

Lemma same_config_refl m : same_config m m.
Proof. by destruct m. Qed.

Lemma same_config_trans m1 m2 m3 :
  same_config m1 m2 → same_config m2 m3 → same_config m1 m3.
Proof.
  unfold same_config. intros H12 H23. rewrite H23 at 1. rewrite H12.
  by destruct m1.
Qed.

Lemma same_config_set_bins bs m : same_config m (set_bins bs m).
Proof. by destruct m. Qed.

Lemma same_config_items m m' : same_config m m' → items m' = items m.
Proof. intros ->. by destruct m. Qed.

Lemma same_config_bin_count m m' :
  same_config m m' → bin_count m' = bin_count m.
Proof. intros ->. by destruct m. Qed.

Lemma insert_at_frame k item w :
  same_config (self w) (self (insert_at k item w).1).
Proof.
  unfold insert_at. destruct (bins (self w) !! k); simpl.
  - destruct (insert _ _ _ _) as [[r b'] h']. apply same_config_set_bins.
  - apply same_config_refl.
Qed.

Lemma open_new_bin_frame item w :
  same_config (self w) (self (open_new_bin item w).1).
Proof.
  unfold open_new_bin. destruct (_bin_factory (self w)); simpl.
  - destruct (insert _ _ _ _) as [[r b'] h']. apply same_config_set_bins.
  - apply same_config_refl.
Qed.

Lemma first_fit_frame item w :
  same_config (self w) (self (_bin_first_fit item w).1).
Proof.
  unfold _bin_first_fit.
  destruct (first_fit_loop _ _ _ _) as [[[] bs'] h']; simpl.
  - apply same_config_set_bins.
  - eapply same_config_trans; [|apply open_new_bin_frame].
    apply same_config_set_bins.
Qed.

Lemma best_fit_frame item w :
  same_config (self w) (self (_bin_best_fit item w).1).
Proof.
  unfold _bin_best_fit.
  destruct (negb _); [apply same_config_refl|].
  destruct (skyline_branch _ _); [apply insert_at_frame|].
  destruct (rect_branch _ _); [apply insert_at_frame|].
  destruct (shelf_branch _ _); [apply insert_at_frame|].
  unfold bind. pose proof (open_new_bin_frame item w) as Hf.
  by destruct (open_new_bin item w) as [w' []].
Qed.

Lemma call_frame item w :
  same_config (self w) (self (call_bin_sel_algo item w).1).
Proof.
  unfold call_bin_sel_algo.
  destruct (bin_sel_algo (self w)) as [[]|].
  - unfold bind. pose proof (best_fit_frame item w) as Hf.
    by destruct (_bin_best_fit item w) as [w' []].
  - apply first_fit_frame.
  - apply same_config_refl.
Qed.

Lemma for_each_frame l w :
  same_config (self w) (self (for_each call_bin_sel_algo l w).1).
Proof.
  revert w. induction l as [|a l IH]; intros w; simpl.
  - apply same_config_refl.
  - unfold bind. pose proof (call_frame a w) as Hf.
    destruct (call_bin_sel_algo a w) as [w' []]; [|done].
    eapply same_config_trans; [exact Hf|apply IH].
Qed.

Lemma execute_frame w : same_config (self w) (self (execute w).1).
Proof. apply for_each_frame. Qed.

Lemma add_items_bin_count batch w :
  bin_count (self (add_items batch w)) = bin_count (self w).
Proof. done. Qed.

End Frame.

(** ** The execution loop *)

(** A run of the loop with the ghost log: either every call returns and the
    log is the whole list, or the calls before some element return, the
    call on that element raises, and nothing after it is called. *)
Lemma for_each_run {S A} (body : A → M S unit) (l : list A) (s : S) log :
  match (for_each body l s).2 with
  | Return _ =>
      for_each (traced body) l (s, log)
      = (((for_each body l s).1, log ++ l), Return tt)
  | Raise e =>
      ∃ before last rest s0,
        l = before ++ last :: rest ∧
        for_each body before s = (s0, Return tt) ∧
        body last s0 = ((for_each body l s).1, Raise e) ∧
        for_each (traced body) l (s, log)
        = (((for_each body l s).1, log ++ before ++ [last]), Raise e)
  end.
Proof.
  revert s log. induction l as [|a l IH]; intros s log; simpl.
  - by rewrite app_nil_r.
  - unfold bind, traced at 1 3. simpl.
    destruct (body a s) as [s' [[]|e]] eqn:Eb; simpl.
    + specialize (IH s' (log ++ [a])).
      destruct ((for_each body l s').2) as [[]|e] eqn:Er.
      * by rewrite IH, <- app_assoc.
      * destruct IH as (before & last & rest & s0 & -> & Hb & Hl & Ht).
        exists (a :: before), last, rest, s0. simpl. unfold bind.
        rewrite Eb, Hb, Ht, <- !app_assoc. done.
    + exists [], a, l, s. by rewrite Eb.
Qed.

Section Execute.
Context `{B : Backend}.

Lemma call_is_policy_call p item w :
  bin_sel_algo (self w) = Some p →
  call_bin_sel_algo item w = policy_call p item w.
Proof. intros E. unfold call_bin_sel_algo. rewrite E. by destruct p. Qed.

Lemma for_each_policy p l w :
  bin_sel_algo (self w) = Some p →
  for_each call_bin_sel_algo l w = for_each (policy_call p) l w.
Proof.
  revert w. induction l as [|a l IH]; intros w E; simpl; [done|].
  unfold bind. rewrite <- (call_is_policy_call p a w E).
  pose proof (call_frame a w) as Hf.
  destruct (call_bin_sel_algo a w) as [w' [[]|e]]; [|done].
  apply IH. simpl in Hf. rewrite Hf. exact E.
Qed.

(** C9 (amended): with a policy configured, [execute] is the configured
    policy method called on the items of the queue one after the other in
    queue order; the queue it leaves is the queue it found.  If every call
    returns, the policy has been called exactly once per item; if a call
    raises, the calls before it have returned, [execute] ends with that
    exception and the items after it are not handled. *)
Theorem execute_runs_policy_in_order (w : World) (p : policy) :
  bin_sel_algo (self w) = Some p →
  let queue := items (self w) in
  execute w = for_each (policy_call p) queue w ∧
  items (self (execute w).1) = queue ∧
  match (execute w).2 with
  | Return _ =>
      for_each (traced (policy_call p)) queue (w, [])
      = (((execute w).1, queue), Return tt)
  | Raise e =>
      ∃ before last rest w0,
        queue = before ++ last :: rest ∧
        for_each (policy_call p) before w = (w0, Return tt) ∧
        policy_call p last w0 = ((execute w).1, Raise e) ∧
        for_each (traced (policy_call p)) queue (w, [])
        = (((execute w).1, before ++ [last]), Raise e)
  end.
Proof.
  intros E queue.
  assert (execute w = for_each (policy_call p) queue w) as Hex
    by by apply for_each_policy.
  split; [done|].
  split; [apply same_config_items, execute_frame|].
  rewrite Hex. apply (for_each_run (policy_call p) queue w []).
Qed.

Lemma init_bin_count bw bh bin_algo pack_algo heur split srt rot merge waste m :
  __init__ bw bh bin_algo pack_algo heur split srt rot merge waste = Return m →
  bin_count m = 0.
Proof.
  unfold __init__. destruct (_bin_factory _); [|done].
  by intros [= <-].
Qed.

(** C10: [bin_count] is 0 after construction and no operation changes
    it, so it is 0 in every reachable world, whatever the number of
    bins. *)
Theorem bin_count_always_zero (w : World) :
  reachable w → bin_count (self w) = 0.
Proof.
  induction 1; simpl.
  - by eapply init_bin_count.
  - done.
  - by rewrite (same_config_bin_count _ _ (execute_frame w)).
  - by rewrite (same_config_bin_count _ _ (first_fit_frame item w)).
  - by rewrite (same_config_bin_count _ _ (best_fit_frame item w)).
  - done.
Qed.

End Execute.

(** ** First fit *)
Section FirstFit.
Context `{B : Backend}.

Lemma refused_length item heur bs h bs' h' :
  refused item heur bs h bs' h' → length bs' = length bs.
Proof. induction 1; simpl; congruence. Qed.



End FirstFit.

(** ** Best fit: the skyline branch *)
Section SkylineScoring.
Context `{B : Backend}.

Lemma foldl_flat_map {X Y St} (f : St → Y → St) (g : X → list Y) st l :
  foldl f st (flat_map g l) = foldl (λ st x, foldl f st (g x)) st l.
Proof.
  revert st. induction l as [|x l IH]; intros st; simpl; [done|].
  by rewrite foldl_app, IH.
Qed.

Lemma skyline_step_candidates it k binn st i :
  skyline_step it k binn st i
  = foldl keep_lower st (seg_candidates it k binn i).
Proof.
  unfold skyline_step, seg_candidates.
  destruct (check_fit binn (width it) (height it) i) as [[] y1];
    destruct (check_fit binn (height it) (width it) i) as [[] y2];
    simpl; unfold keep_lower; simpl; done.
Qed.

Lemma skyline_scan_candidates it bs :
  skyline_scan it bs = foldl keep_lower (None, None) (candidates it bs).
Proof.
  unfold skyline_scan, candidates. rewrite foldl_flat_map.
  generalize (@None Z, @None nat). generalize (enumerate bs).
  intros l. induction l as [|[k binn] l IH]; intros st; simpl; [done|].
  rewrite IH. f_equal. rewrite foldl_flat_map.
  generalize (seq 0 (length (skyline binn))). clear.
  intros l. revert st. induction l as [|i l IH]; intros st; simpl; [done|].
  by rewrite IH, skyline_step_candidates.
Qed.

(** The strict comparison keeps the first of the lowest candidates. *)
Lemma keep_lower_first_min c cs :
  ∃ l1 k y l2,
    c :: cs = l1 ++ (k, y) :: l2 ∧
    Forall (λ d, y < d.2) l1 ∧
    Forall (λ d, y ≤ d.2) l2 ∧
    foldl keep_lower (None, None) (c :: cs) = (Some y, Some k).
Proof.
  induction cs as [|d cs IH] using rev_ind.
  - exists [], c.1, c.2, []. destruct c. by repeat split.
  - destruct IH as (l1 & k & y & l2 & Hc & H1 & H2 & Hf).
    rewrite app_comm_cons, foldl_app, Hf. simpl.
    unfold keep_lower. simpl.
    destruct (Z.ltb_spec d.2 y) as [Hlt|Hge].
    + exists (c :: cs), d.1, d.2, []. destruct d as [kd yd]. simpl in *.
      repeat split; [|constructor].
      rewrite Hc, Forall_app, Forall_cons. repeat split.
      * eapply Forall_impl; [exact H1|]. simpl. lia.
      * simpl. lia.
      * eapply Forall_impl; [exact H2|]. simpl. lia.
    + exists l1, k, y, (l2 ++ [d]). repeat split; [|done|].
      * by rewrite app_comm_cons, Hc, <- app_assoc.
      * rewrite Forall_app, Forall_singleton. done.
Qed.

Lemma candidates_position it bs k y :
  (k, y) ∈ candidates it bs → is_Some (bs !! k).
Proof.
  unfold candidates. rewrite list_elem_of_In, in_flat_map.
  intros ([k' binn] & Hin & Hc).
  apply list_elem_of_In in Hin. unfold enumerate in Hin.
  apply elem_of_lookup_imap in Hin as (i & b & [= -> ->] & Hl).
  apply in_flat_map in Hc as (j & _ & Hj).
  assert (k = i) as ->; [|by eexists].
  unfold seg_candidates in Hj. apply in_app_or in Hj.
  destruct (check_fit b (width it) (height it) j) as [[] y1];
    destruct (check_fit b (height it) (width it) j) as [[] y2];
    simpl in Hj; intuition congruence.
Qed.

Lemma other_branches_of_skyline m it :
  algorithm m = "skyline" →
  skyline_branch m it = (skyline_scan it (bins m)).2 ∧
  rect_branch m it = None ∧ shelf_branch m it = None.
Proof.
  intros E. unfold skyline_branch, rect_branch, shelf_branch.
  by rewrite E.
Qed.

(** C4: with the skyline algorithm, when some placement is feasible the
    item is inserted into the bin of the first placement, in scan order,
    whose y is the lowest of all feasible placements; with no feasible
    placement a new bin is opened. *)
Theorem skyline_best_fit_minimal_first (item : ItemRef) (w : World) :
  let m := self w in
  let it := heap w item in
  algorithm m = "skyline" →
  item_fits m it = true →
  match candidates it (bins m) with
  | [] => _bin_best_fit item w = (open_new_bin item ;;; ret true) w
  | _ :: _ =>
      ∃ l1 k y l2,
        candidates it (bins m) = l1 ++ (k, y) :: l2 ∧
        Forall (λ d, y < d.2) l1 ∧
        Forall (λ d, y ≤ d.2) l2 ∧
        is_Some (bins m !! k) ∧
        _bin_best_fit item w = insert_at k item w
  end.
Proof.
  intros m it Halg Hfits.
  destruct (other_branches_of_skyline m it Halg) as (Hs & Hr & Hsh).
  unfold _bin_best_fit. fold m. fold it.
  rewrite Hfits, Hs, Hr, Hsh, skyline_scan_candidates. simpl.
  pose proof (candidates_position it (bins m)) as Hpos.
  destruct (candidates it (bins m)) as [|c cs]; [done|].
  destruct (keep_lower_first_min c cs) as (l1 & k & y & l2 & Hc & H1 & H2 & Hf).
  exists l1, k, y, l2. rewrite Hf. simpl.
  repeat split; try done.
  apply (Hpos k y). rewrite Hc, elem_of_app, elem_of_cons. tauto.
Qed.

End SkylineScoring.

(** ** Best fit: the oversize guard *)

Section Guard.
Context `{B : Backend}.

(** The error is raised before anything else happens. *)
Lemma best_fit_oversize item w :
  item_fits (self w) (heap w item) = false →
  _bin_best_fit item w = (w, Raise oversize).
Proof. intros E. unfold _bin_best_fit. by rewrite E. Qed.

(** Whenever the guard raises, the item indeed fits in no allowed
    orientation. *)
Lemma item_fits_false_sound m it :
  item_fits m it = false →
  fits_allowed (bin_width m) (bin_height m) (rotation m) it = false.
Proof.
  unfold item_fits, fits_allowed.
  destruct (rotation m); simpl;
    repeat match goal with
           | |- context [?a <=? ?b] => destruct (Z.leb_spec a b)
           | |- context [?a >=? ?b] => destruct (Z.geb_spec a b)
           end; simpl; try done; lia.
Qed.

Lemma insert_at_not_oversize k item w :
  (insert_at k item w).2 ≠ Raise oversize.
Proof.
  unfold insert_at. destruct (bins (self w) !! k); [|done].
  by destruct (insert _ _ _ _) as [[r b'] h'].
Qed.

Lemma open_new_bin_not_oversize item w :
  (open_new_bin item w).2 ≠ Raise oversize.
Proof.
  unfold open_new_bin.
  destruct (factory_result (self w)) as [E|[b E]]; rewrite E; [done|].
  by destruct (insert _ _ _ _) as [[r b'] h'].
Qed.

(** The oversize error is raised exactly when [item_fits] is false. *)
Lemma best_fit_raises_oversize_iff item w :
  (_bin_best_fit item w).2 = Raise oversize
  ↔ item_fits (self w) (heap w item) = false.
Proof.
  split; [|intros E; by rewrite best_fit_oversize].
  unfold _bin_best_fit.
  destruct (item_fits (self w) (heap w item)); [|done]. simpl.
  destruct (skyline_branch _ _);
    [intros E; by apply insert_at_not_oversize in E|].
  destruct (rect_branch _ _);
    [intros E; by apply insert_at_not_oversize in E|].
  destruct (shelf_branch _ _);
    [intros E; by apply insert_at_not_oversize in E|].
  unfold bind. pose proof (open_new_bin_not_oversize item w) as Hn.
  destruct (open_new_bin item w) as [w' [[]|e]]; simpl in *;
    [done|intros [= ->]; by destruct Hn].
Qed.

(** C8: a manager for 4 by 4 bins with the shelf algorithm, best fit and
    no rotation is constructed; the item 5 by 1 is queued; [execute]
    raises the oversize error and changes nothing. *)
Theorem scenario_oversize_5x1 (heur split : string) (srt merge waste : bool)
    (item : ItemRef) :
  ∃ m,
    __init__ 4 4 "bin_best_fit" "shelf" heur split srt false merge waste
    = Return m ∧
    let w := add_items [item] (mkWorld m (λ _, mkItem 5 1 0 0 false)) in
    items (self w) = [item] ∧
    execute w = (w, Raise oversize).
Proof.
  eexists. split; [reflexivity|].
  destruct srt; split; reflexivity.
Qed.

End Guard.

(** ** Best fit: the shelf and rectangle branches *)
Section MoreScoring.
Context `{B : Backend}.

Lemma enumerate_snoc {A} (l : list A) (a : A) :
  enumerate (l ++ [a]) = enumerate l ++ [(length l, a)].
Proof. unfold enumerate. rewrite imap_app. simpl. by rewrite Nat.add_0_r. Qed.

Lemma enumerate_lookup {A} (l : list A) (k : nat) (a : A) :
  (k, a) ∈ enumerate l → l !! k = Some a.
Proof.
  unfold enumerate. intros Hin.
  by apply elem_of_lookup_imap in Hin as (i & b & [= -> ->] & Hl).
Qed.

Lemma keep_lower_result cs y k :
  foldl keep_lower (None, None) cs = (y, Some k) → ∃ y', (k, y') ∈ cs.
Proof.
  destruct cs as [|c cs]; [done|].
  destruct (keep_lower_first_min c cs) as (l1 & k' & y' & l2 & Hc & _ & _ & Hf).
  rewrite Hf, Hc. intros [= _ <-]. exists y'.
  rewrite elem_of_app, elem_of_cons. tauto.
Qed.

(** *** Shelf *)

Lemma shelf_step_offer it st ib :
  shelf_step it st ib = foldl keep_lower st (shelf_offer it ib).
Proof.
  destruct ib as [i binn]. unfold shelf_step, shelf_offer. simpl.
  destruct (shelf_candidate it binn) as [area|]; [|done].
  by destruct (area =? 0).
Qed.

Lemma shelf_scan_candidates it bs :
  shelf_scan it bs = foldl keep_lower (None, None) (shelf_candidates it bs).
Proof.
  unfold shelf_scan, shelf_candidates. rewrite foldl_flat_map.
  generalize (@None Z, @None nat). generalize (enumerate bs).
  intros l. induction l as [|ib l IH]; intros st; simpl; [done|].
  by rewrite shelf_step_offer, IH.
Qed.

Lemma shelf_candidates_position it bs k a :
  (k, a) ∈ shelf_candidates it bs → is_Some (bs !! k).
Proof.
  unfold shelf_candidates. rewrite list_elem_of_In, in_flat_map.
  intros ([i binn] & Hin & Ho).
  apply list_elem_of_In, enumerate_lookup in Hin.
  unfold shelf_offer in Ho. simpl in Ho.
  destruct (shelf_candidate it binn) as [area|]; [|done].
  destruct (area =? 0); [done|].
  destruct Ho as [[= <- <-]|[]]. by eexists.
Qed.

Lemma shelf_candidates_nonzero it bs k a :
  (k, a) ∈ shelf_candidates it bs →
  a ≠ 0 ∧ ∃ binn, bs !! k = Some binn ∧ shelf_candidate it binn = Some a.
Proof.
  unfold shelf_candidates. rewrite list_elem_of_In, in_flat_map.
  intros ([i binn] & Hin & Ho).
  apply list_elem_of_In, enumerate_lookup in Hin.
  unfold shelf_offer in Ho. simpl in Ho.
  destruct (shelf_candidate it binn) as [area|] eqn:Ec; [|done].
  destruct (Z.eqb_spec area 0); [done|].
  destruct Ho as [[= <- <-]|[]]. split; [done|]. by exists binn.
Qed.

Lemma other_branches_of_shelf m it :
  algorithm m = "shelf" →
  skyline_branch m it = None ∧ rect_branch m it = None ∧
  shelf_branch m it = (shelf_scan it (bins m)).2.
Proof.
  intros E. unfold skyline_branch, rect_branch, shelf_branch.
  by rewrite E.
Qed.

(** X6: with the shelf algorithm, the item is inserted into the first bin, in
    list order, whose offered area is the smallest of the non-zero areas
    offered; when no bin offers a non-zero area a new bin is opened. *)
Theorem shelf_best_fit_smallest_area (item : ItemRef) (w : World) :
  let m := self w in
  let it := heap w item in
  algorithm m = "shelf" →
  item_fits m it = true →
  match shelf_candidates it (bins m) with
  | [] => _bin_best_fit item w = (open_new_bin item ;;; ret true) w
  | _ :: _ =>
      ∃ l1 k area l2,
        shelf_candidates it (bins m) = l1 ++ (k, area) :: l2 ∧
        Forall (λ d, area < d.2) l1 ∧
        Forall (λ d, area ≤ d.2) l2 ∧
        area ≠ 0 ∧
        (∃ binn, bins m !! k = Some binn ∧
                 shelf_candidate it binn = Some area) ∧
        _bin_best_fit item w = insert_at k item w
  end.
Proof.
  intros m it Halg Hfits.
  destruct (other_branches_of_shelf m it Halg) as (Hs & Hr & Hsh).
  unfold _bin_best_fit. fold m. fold it.
  rewrite Hfits, Hs, Hr, Hsh, shelf_scan_candidates. simpl.
  pose proof (shelf_candidates_nonzero it (bins m)) as Hpos.
  destruct (shelf_candidates it (bins m)) as [|c cs]; [done|].
  destruct (keep_lower_first_min c cs) as (l1 & k & a & l2 & Hc & H1 & H2 & Hf).
  exists l1, k, a, l2. rewrite Hf. simpl.
  destruct (Hpos k a) as [Hnz Hb].
  { rewrite Hc, elem_of_app, elem_of_cons. tauto. }
  done.
Qed.

(** *** Guillotine and maximal rectangle *)

Lemma rect_scan_snoc it bs b :
  rect_scan it (bs ++ [b]) = rect_step it (rect_scan it bs) (length bs, b).
Proof. unfold rect_scan. by rewrite enumerate_snoc, foldl_app. Qed.

Lemma rect_candidates_snoc it bs b :
  rect_candidates it (bs ++ [b])
  = rect_candidates it bs ++ rect_offer it (length bs, b).
Proof.
  unfold rect_candidates. rewrite enumerate_snoc, flat_map_app. simpl.
  by rewrite app_nil_r.
Qed.

Lemma last_index_snoc bs b : last_index (bs ++ [b]) = Some (length bs).
Proof.
  destruct bs as [|c bs]; simpl; [done|].
  rewrite length_app. simpl. f_equal. lia.
Qed.

Lemma last_index_lookup bs k : last_index bs = Some k → is_Some (bs !! k).
Proof.
  destruct bs as [|b bs]; simpl; [done|]. intros [= <-].
  apply lookup_lt_is_Some. simpl. lia.
Qed.

Lemma rect_scan_spec it bs :
  (rect_scan it bs).2 = last_index bs ∧
  match rect_candidates it bs with
  | [] => (rect_scan it bs).1 = (None, None)
  | _ :: _ =>
      ∃ l1 k r l2,
        rect_candidates it bs = l1 ++ (k, r) :: l2 ∧
        Forall (λ d, rect_area r < rect_area d.2) l1 ∧
        Forall (λ d, rect_area r ≤ rect_area d.2) l2 ∧
        (rect_scan it bs).1 = (Some r, Some k)
  end.
Proof.
  induction bs as [|b bs IH] using rev_ind; [done|].
  rewrite rect_scan_snoc, rect_candidates_snoc, last_index_snoc.
  destruct IH as [_ IH].
  destruct (rect_scan it bs) as [[best_rect best_bin_index] i].
  unfold rect_step, rect_offer. simpl in *.
  destruct (first_fitting_rect it b) as [r|].
  - destruct (rect_candidates it bs) as [|c cs].
    + injection IH as -> ->. simpl. split; [done|].
      exists [], (length bs), r, []. by repeat split.
    + destruct IH as (l1 & k & r0 & l2 & Hc & H1 & H2 & [= -> ->]).
      rewrite <- app_comm_cons.
      destruct (Z.ltb_spec (rect_area r) (rect_area r0)) as [Hlt|Hge];
        (split; [done|]).
      * exists (c :: cs), (length bs), r, []. repeat split; [|constructor].
        rewrite Hc, Forall_app, Forall_cons. repeat split.
        -- eapply Forall_impl; [exact H1|]. simpl. lia.
        -- simpl. lia.
        -- eapply Forall_impl; [exact H2|]. simpl. lia.
      * exists l1, k, r0, (l2 ++ [(length bs, r)]). repeat split; [|done|].
        -- by rewrite app_comm_cons, Hc, <- app_assoc.
        -- rewrite Forall_app, Forall_singleton. done.
  - rewrite app_nil_r.
    destruct (rect_candidates it bs) as [|c cs].
    + injection IH as -> ->. done.
    + destruct IH as (l1 & k & r0 & l2 & Hc & H1 & H2 & [= -> ->]).
      split; [done|]. by exists l1, k, r0, l2.
Qed.

Lemma rect_candidates_fit it bs k r :
  (k, r) ∈ rect_candidates it bs →
  ∃ binn, bs !! k = Some binn ∧ first_fitting_rect it binn = Some r.
Proof.
  unfold rect_candidates. rewrite list_elem_of_In, in_flat_map.
  intros ([i binn] & Hin & Ho).
  apply list_elem_of_In, enumerate_lookup in Hin.
  unfold rect_offer in Ho. simpl in Ho.
  destruct (first_fitting_rect it binn) as [r'|] eqn:Ef; [|done].
  destruct Ho as [[= <- <-]|[]]. by exists binn.
Qed.

(** X7: with the guillotine or maximal-rectangle algorithm, as soon as one bin
    has a free rectangle the item fits, the item is inserted into the last
    bin of the list.  The scan does record the first bin, in list order,
    whose first fitting rectangle has the smallest area, but that record is
    not what selects the bin.  With no fitting rectangle a new bin is
    opened. *)
Theorem rect_best_fit_targets_last_bin (item : ItemRef) (w : World) :
  let m := self w in
  let it := heap w item in
  algorithm m = "guillotine" ∨ algorithm m = "maximal_rectangle" →
  item_fits m it = true →
  match rect_candidates it (bins m) with
  | [] => _bin_best_fit item w = (open_new_bin item ;;; ret true) w
  | _ :: _ =>
      ∃ l1 k r l2 last,
        rect_candidates it (bins m) = l1 ++ (k, r) :: l2 ∧
        Forall (λ d, rect_area r < rect_area d.2) l1 ∧
        Forall (λ d, rect_area r ≤ rect_area d.2) l2 ∧
        (∃ binn, bins m !! k = Some binn ∧
                 first_fitting_rect it binn = Some r) ∧
        rect_scan it (bins m) = (Some r, Some k, Some last) ∧
        S last = length (bins m) ∧
        _bin_best_fit item w = insert_at last item w
  end.
Proof.
  intros m it Halg Hfits.
  assert (skyline_branch m it = None ∧ shelf_branch m it = None ∧
          rect_branch m it
          = let '(best_rect, _, i) := rect_scan it (bins m) in
            match best_rect with Some _ => i | None => None end)
    as (Hs & Hsh & Hr).
  { unfold skyline_branch, shelf_branch, rect_branch.
    destruct Halg as [E|E]; by rewrite E. }
  unfold _bin_best_fit. fold m. fold it.
  rewrite Hfits, Hs, Hr. clear Hr. simpl.
  destruct (rect_scan_spec it (bins m)) as [Hi Hc].
  pose proof (rect_candidates_fit it (bins m)) as Hfit.
  destruct (rect_scan it (bins m)) as [[best_rect best_bin_index] i].
  simpl in *.
  destruct (rect_candidates it (bins m)) as [|c cs] eqn:Ecs.
  - injection Hc as -> ->. by rewrite Hsh.
  - destruct Hc as (l1 & k & r & l2 & Hc & H1 & H2 & [= -> ->]).
    specialize (Hfit k r).
    destruct (bins m) as [|b bs] eqn:Eb; [done|].
    simpl in Hi. subst i.
    exists l1, k, r, l2, (length bs). repeat split; try done.
    apply Hfit. rewrite Hc, elem_of_app, elem_of_cons. tauto.
Qed.

End MoreScoring.

(** ** Best fit: one insert per call *)
Section BestFitCalls.
Context `{B : Backend}.

Lemma skyline_branch_valid m it k :
  skyline_branch m it = Some k → is_Some (bins m !! k).
Proof.
  unfold skyline_branch. destruct (String.eqb _ _); [|done].
  rewrite skyline_scan_candidates.
  destruct (foldl keep_lower _ _) as [y o] eqn:E. simpl. intros ->.
  apply keep_lower_result in E as [y' Hin]. by eapply candidates_position.
Qed.

Lemma shelf_branch_valid m it k :
  shelf_branch m it = Some k → is_Some (bins m !! k).
Proof.
  unfold shelf_branch. destruct (String.eqb _ _); [|done].
  rewrite shelf_scan_candidates.
  destruct (foldl keep_lower _ _) as [y o] eqn:E. simpl. intros ->.
  apply keep_lower_result in E as [y' Hin].
  by eapply shelf_candidates_position.
Qed.

Lemma rect_branch_valid m it k :
  rect_branch m it = Some k → is_Some (bins m !! k).
Proof.
  unfold rect_branch. destruct (_ || _); [|done].
  destruct (rect_scan_spec it (bins m)) as [Hi _].
  destruct (rect_scan it (bins m)) as [[best_rect best_bin_index] i].
  simpl in Hi. destruct best_rect; [|done]. intros ->.
  by apply last_index_lookup.
Qed.

Lemma insert_at_valid k item w :
  is_Some (bins (self w) !! k) →
  ∃ binn r binn' h',
    bins (self w) !! k = Some binn ∧
    insert binn (heap w) item (heuristic (self w)) = (r, binn', h') ∧
    insert_at k item w
    = (mkWorld (set_bins (<[k := binn']> (bins (self w))) (self w)) h',
       Return r).
Proof.
  intros [binn Hb]. unfold insert_at. rewrite Hb.
  destruct (insert binn (heap w) item (heuristic (self w)))
    as [[r binn'] h'] eqn:Ei.
  by exists binn, r, binn', h'.
Qed.

Lemma open_new_bin_cases item w :
  (∃ fresh r fresh' h',
     _bin_factory (self w) = Return fresh ∧
     insert fresh (heap w) item (heuristic (self w)) = (r, fresh', h') ∧
     open_new_bin item w
     = (mkWorld (set_bins (bins (self w) ++ [fresh']) (self w)) h',
        Return tt)) ∨
  (_bin_factory (self w) = Raise no_such_algorithm ∧
   open_new_bin item w = (w, Raise no_such_algorithm)).
Proof.
  unfold open_new_bin.
  destruct (factory_result (self w)) as [E|[fresh E]]; rewrite E.
  - by right.
  - left.
    destruct (insert fresh (heap w) item (heuristic (self w)))
      as [[r fresh'] h'] eqn:Ei.
    by exists fresh, r, fresh', h'.
Qed.

Lemma best_fit_cases (item : ItemRef) (w : World) :
  let m := self w in
  let heur := heuristic m in
  (item_fits m (heap w item) = false ∧
   _bin_best_fit item w = (w, Raise oversize)) ∨
  (item_fits m (heap w item) = true ∧
   ((∃ k binn r binn' h',
       bins m !! k = Some binn ∧
       insert binn (heap w) item heur = (r, binn', h') ∧
       _bin_best_fit item w
       = (mkWorld (set_bins (<[k := binn']> (bins m)) m) h', Return r)) ∨
    (∃ fresh r fresh' h',
       _bin_factory m = Return fresh ∧
       insert fresh (heap w) item heur = (r, fresh', h') ∧
       _bin_best_fit item w
       = (mkWorld (set_bins (bins m ++ [fresh']) m) h', Return true)) ∨
    (_bin_factory m = Raise no_such_algorithm ∧
     _bin_best_fit item w = (w, Raise no_such_algorithm)))).
Proof.
  intros m heur. unfold _bin_best_fit. fold m.
  destruct (item_fits m (heap w item)); [right|left; by split].
  split; [done|]. simpl.
  pose proof (skyline_branch_valid m (heap w item)) as Hsk.
  pose proof (rect_branch_valid m (heap w item)) as Hre.
  pose proof (shelf_branch_valid m (heap w item)) as Hsh.
  destruct (skyline_branch m (heap w item)) as [k|];
    [left; exists k; by apply insert_at_valid, Hsk|].
  destruct (rect_branch m (heap w item)) as [k|];
    [left; exists k; by apply insert_at_valid, Hre|].
  destruct (shelf_branch m (heap w item)) as [k|];
    [left; exists k; by apply insert_at_valid, Hsh|].
  right. unfold bind.
  destruct (open_new_bin_cases item w)
    as [(fresh & r & fresh' & h' & Ef & Ei & ->)|[Ef ->]].
  - left. by exists fresh, r, fresh', h'.
  - by right.
Qed.

(** X5: a call of [_bin_best_fit] either raises the oversize error at once, or
    calls [insert] exactly once: on one bin of the list, whose result it
    returns and which is the only bin that changes, or on one fresh bin
    that it appends, returning [True] whatever that [insert] answered.
    The index used is always in range. *)
Theorem best_fit_one_insert (item : ItemRef) (w : World) :
  let m := self w in
  let heur := heuristic m in
  (item_fits m (heap w item) = false ∧
   _bin_best_fit item w = (w, Raise oversize)) ∨
  (item_fits m (heap w item) = true ∧
   ((∃ k binn r binn' h',
       bins m !! k = Some binn ∧
       insert binn (heap w) item heur = (r, binn', h') ∧
       _bin_best_fit item w
       = (mkWorld (set_bins (<[k := binn']> (bins m)) m) h', Return r)) ∨
    (∃ fresh r fresh' h',
       _bin_factory m = Return fresh ∧
       insert fresh (heap w) item heur = (r, fresh', h') ∧
       _bin_best_fit item w
       = (mkWorld (set_bins (bins m ++ [fresh']) m) h', Return true)) ∨
    (_bin_factory m = Raise no_such_algorithm ∧
     _bin_best_fit item w = (w, Raise no_such_algorithm)))).
Proof. apply best_fit_cases. Qed.

Lemma recognized_factory m :
  algorithm m ∈ recognized_names → ∃ fresh, _bin_factory m = Return fresh.
Proof.
  intros Hin. destruct (factory_result m) as [E|E]; [|done].
  by apply factory_raises_iff in E.
Qed.

(** X4: whenever [_bin_best_fit] raises the oversize error, nothing has
    changed and the item fits the bin dimensions in no allowed orientation:
    the guard never turns away an item that fits. *)
Theorem oversize_error_sound (item : ItemRef) (w : World) :
  (_bin_best_fit item w).2 = Raise oversize →
  _bin_best_fit item w = (w, Raise oversize) ∧
  fits_allowed (bin_width (self w)) (bin_height (self w))
    (rotation (self w)) (heap w item) = false.
Proof.
  intros Hr. apply best_fit_raises_oversize_iff in Hr.
  split; [by apply best_fit_oversize|by apply item_fits_false_sound].
Qed.

(** X3: the oversize error in terms of the dimensions: it is raised exactly
    when the item is wider than the bin and lower than the bin is high
    and, with rotation, also higher than the bin is wide and narrower than
    the bin is high. *)
Theorem oversize_error_exactly (item : ItemRef) (w : World) :
  let m := self w in
  let it := heap w item in
  (_bin_best_fit item w).2 = Raise oversize
  ↔ bin_width m < width it ∧ height it < bin_height m ∧
    (rotation m = true →
     bin_width m < height it ∧ width it < bin_height m).
Proof.
  intros m it. rewrite best_fit_raises_oversize_iff. fold m. fold it.
  unfold item_fits.
  destruct (Z.leb_spec (width it) (bin_width m));
    destruct (Z.geb_spec (height it) (bin_height m));
    destruct (rotation m);
    destruct (Z.leb_spec (height it) (bin_width m));
    destruct (Z.geb_spec (width it) (bin_height m));
    simpl; split; try done; try lia; intros (? & ? & Hr);
    try lia; destruct Hr; try done; lia.
Qed.

End BestFitCalls.

(** ** Runs of the manager *)
Section Runs.
Context `{B : Backend}.

Lemma same_config_algorithm m m' :
  same_config m m' → algorithm m' = algorithm m.
Proof. intros ->. by destruct m. Qed.

Lemma first_fit_loop_length bs h item heur :
  length (first_fit_loop bs h item heur).1.2 = length bs.
Proof.
  revert h. induction bs as [|b bs IH]; intros h; simpl; [done|].
  destruct (insert b h item heur) as [[[] b'] h']; simpl; [done|].
  specialize (IH h').
  destruct (first_fit_loop bs h' item heur) as [[r rest'] h''].
  simpl in *. by rewrite IH.
Qed.

Lemma first_fit_length item w :
  (length (bins (self w)) ≤ length (bins (self (_bin_first_fit item w).1))
   ≤ S (length (bins (self w))))%nat.
Proof.
  unfold _bin_first_fit.
  pose proof (first_fit_loop_length (bins (self w)) (heap w) item
                (heuristic (self w))) as Hlen.
  destruct (first_fit_loop _ _ _ _) as [[[] bs'] h']; simpl in *; [lia|].
  destruct (open_new_bin_cases item
              (mkWorld (set_bins bs' (self w)) h'))
    as [(fresh & r & fresh' & h'' & _ & _ & ->)|[_ ->]]; simpl.
  - rewrite length_app. simpl. lia.
  - lia.
Qed.

Lemma best_fit_length item w :
  (length (bins (self w)) ≤ length (bins (self (_bin_best_fit item w).1))
   ≤ S (length (bins (self w))))%nat.
Proof.
  destruct (best_fit_cases item w)
    as [[_ ->]|[_ [(k & b & r & b' & h' & _ & _ & ->)
                  |[(f & r & f' & h' & _ & _ & ->)|[_ ->]]]]]; simpl.
  - lia.
  - rewrite length_insert. lia.
  - rewrite length_app. simpl. lia.
  - lia.
Qed.

Lemma call_length item w :
  (length (bins (self w))
   ≤ length (bins (self (call_bin_sel_algo item w).1))
   ≤ S (length (bins (self w))))%nat.
Proof.
  unfold call_bin_sel_algo.
  destruct (bin_sel_algo (self w)) as [[]|]; simpl.
  - unfold bind. pose proof (best_fit_length item w) as Hl.
    by destruct (_bin_best_fit item w) as [w' []].
  - apply first_fit_length.
  - lia.
Qed.

Lemma for_each_length l w :
  (length (bins (self w))
   ≤ length (bins (self (for_each call_bin_sel_algo l w).1))
   ≤ length (bins (self w)) + length l)%nat.
Proof.
  revert w. induction l as [|a l IH]; intros w; simpl; [lia|].
  unfold bind. pose proof (call_length a w) as Hc.
  destruct (call_bin_sel_algo a w) as [w' []]; simpl in *; [|lia].
  specialize (IH w'). lia.
Qed.

(** X11: [execute] changes nothing of the manager but its bins, never removes a
    bin and opens at most one new bin per queued item. *)
Theorem execute_changes_bins_only (w : World) :
  same_config (self w) (self (execute w).1) ∧
  (length (bins (self w))
   ≤ length (bins (self (execute w).1))
   ≤ length (bins (self w)) + length (items (self w)))%nat.
Proof. split; [apply execute_frame|apply for_each_length]. Qed.

(** X2: a manager constructed with a [bin_algo] that is neither of the two
    policy names is constructed without error; [execute] then does nothing
    on an empty queue and raises an attribute error, before anything is
    placed, on a non-empty one. *)
Theorem unknown_bin_algo_fails_at_execute
    (bw bh : Z) (bin_algo pack_algo heur split : string)
    (srt rot merge waste : bool) :
  bin_algo ≠ "bin_best_fit" →
  bin_algo ≠ "bin_first_fit" →
  pack_algo ∈ recognized_names →
  ∃ m,
    __init__ bw bh bin_algo pack_algo heur split srt rot merge waste
    = Return m ∧
    ∀ h batch,
      let w := add_items batch (mkWorld m h) in
      execute w
      = (w, match batch with
            | [] => Return tt
            | _ :: _ => Raise no_policy
            end).
Proof.
  intros Hb Hf Hrec. unfold __init__.
  apply String.eqb_neq in Hb, Hf. rewrite Hb, Hf.
  match goal with
  | |- context [_bin_factory ?m0] =>
      destruct (recognized_factory m0 Hrec) as [fresh ->]
  end.
  eexists. split; [done|]. intros h batch.
  match goal with |- context [execute ?w0] => set (w := w0) end.
  unfold execute.
  assert (items (self w) ≡ₚ batch) as Hperm.
  { subst w. rewrite add_items_queue. simpl.
    destruct srt; [apply sort_desc_perm|done]. }
  assert (bin_sel_algo (self w) = None) as Hnone by done.
  destruct batch as [|a batch].
  - apply Permutation_nil_r in Hperm. by rewrite Hperm.
  - destruct (items (self w)) as [|c q];
      [by apply Permutation_nil_cons in Hperm|].
    simpl. unfold bind, call_bin_sel_algo. by rewrite Hnone.
Qed.

Lemma init_recognized bw bh bin_algo pack_algo heur split srt rot merge waste m :
  __init__ bw bh bin_algo pack_algo heur split srt rot merge waste = Return m →
  bins m ≠ [] ∧ algorithm m ∈ recognized_names.
Proof.
  unfold __init__.
  match goal with
  | |- context [_bin_factory ?m0] =>
      pose proof (factory_raises_iff m0) as Hf;
      destruct (_bin_factory m0) as [b|e] eqn:E; [|done]
  end.
  intros [= <-]. simpl in *. split; [done|].
  apply dec_stable. intros Hn. apply Hf in Hn. done.
Qed.

(** X12: in every reachable world the bin list is not empty and the algorithm
    is one of the four recognised names, so the factory cannot fail
    there. *)
Theorem reachable_well_configured (w : World) :
  reachable w →
  bins (self w) ≠ [] ∧
  algorithm (self w) ∈ recognized_names ∧
  ∃ fresh, _bin_factory (self w) = Return fresh.
Proof.
  intros Hr.
  assert (bins (self w) ≠ [] ∧ algorithm (self w) ∈ recognized_names)
    as [Hb Ha]; [|by (repeat split; [..|apply recognized_factory])].
  induction Hr as [bw bh ba pa he sp so ro me wa m h Hi
                  |batch w Hr [IHb IHa]|w Hr [IHb IHa]
                  |item w Hr [IHb IHa]|item w Hr [IHb IHa]
                  |w h Hr [IHb IHa]]; simpl.
  - by eapply init_recognized.
  - done.
  - split.
    + pose proof (for_each_length (items (self w)) w) as Hl.
      fold (execute w) in Hl. intros E. rewrite E in Hl.
      destruct (bins (self w)); [done|simpl in Hl; lia].
    + by rewrite (same_config_algorithm _ _ (execute_frame w)).
  - split.
    + pose proof (first_fit_length item w) as Hl. intros E. rewrite E in Hl.
      destruct (bins (self w)); [done|simpl in Hl; lia].
    + by rewrite (same_config_algorithm _ _ (first_fit_frame item w)).
  - split.
    + pose proof (best_fit_length item w) as Hl. intros E. rewrite E in Hl.
      destruct (bins (self w)); [done|simpl in Hl; lia].
    + by rewrite (same_config_algorithm _ _ (best_fit_frame item w)).
  - done.
Qed.

(** X1: submitting two batches one after the other leaves the same queue as
    submitting them as one batch, with or without sorting. *)
Theorem add_items_batches_compose (b1 b2 : list ItemRef) (w : World) :
  add_items b2 (add_items b1 w) = add_items (b1 ++ b2) w.
Proof.
  unfold add_items. simpl. rewrite !foldl_append.
  destruct (sorting (self w)); simpl; [|by rewrite app_assoc].
  f_equal. unfold set_items. simpl. f_equal.
  apply (descending_stable_unique (area_key (heap w)));
    [apply sort_desc_descending..|].
  intros k.
  rewrite !sort_desc_stable, !filter_app, sort_desc_stable, filter_app.
  by rewrite app_assoc.
Qed.

End Runs.
(** ** The manager on concrete bins *)
Import Scripted Concrete.

(** *** The oversize guard *)

(** C1: the guard passes the item 5 by 5 for 4 by 4 bins without rotation,
    although it fits in no orientation: [_bin_best_fit] raises nothing,
    opens a second bin and returns [True], and the item is in neither
    bin. *)
Theorem oversize_guard_admits_5x5 :
  ∃ m,
    __init__ 4 4 "bin_best_fit" "shelf" "default" "default" true false true true
    = Return m ∧
    let it := unplaced 5 5 in
    let w := mkWorld m (λ _, it) in
    fits_allowed (bin_width m) (bin_height m) (rotation m) it = false ∧
    item_fits m it = true ∧
    (_bin_best_fit 0%nat w).2 = Return true ∧
    sb_placed <$> bins (self (_bin_best_fit 0%nat w).1) = [[]; []].
Proof. eexists. split; [reflexivity|]. by vm_compute. Qed.

(** *** Guillotine scoring *)

(** C2: the first bin offers a free rectangle of area 4 and the second one
    of area 16; the scan records the first bin as the best, and the item is
    inserted into the second, the bin the loop visited last. *)
Theorem rect_insert_goes_to_last_bin :
  let it := unplaced 2 2 in
  let bs := bins (self world_two_bins) in
  first_fitting_rect it <$> bs = [Some (2, 2); Some (4, 4)] ∧
  rect_scan it bs = (Some (2, 2), Some 0%nat, Some 1%nat) ∧
  (_bin_best_fit 0%nat world_two_bins).2 = Return true ∧
  sb_placed <$> bins (self (_bin_best_fit 0%nat world_two_bins).1)
  = [[]; [0%nat]].
Proof. by vm_compute. Qed.

(** *** Scoring without rotation *)

(** C3: with the rotation flag off, the skyline branch still asks
    [check_fit] for the swapped dimensions and selects the bin on that
    answer alone, and the shelf branch still takes the new-shelf option on
    the swapped test alone.  In both cases the selected bin refuses the
    item, no bin is opened, and [False] is returned. *)
Theorem scoring_ignores_rotation_flag :
  (let w := mkWorld (manager_4x4 "skyline" false [skyline_bin_upright_only])
              (λ _, unplaced 3 2) in
   rotation (self w) = false ∧
   check_fit skyline_bin_upright_only 3 2 0%nat = (false, 4) ∧
   check_fit skyline_bin_upright_only 3 2 1%nat = (false, 4) ∧
   check_fit skyline_bin_upright_only 2 3 0%nat = (true, 4) ∧
   skyline_scan (unplaced 3 2) (bins (self w)) = (Some 4, Some 0%nat) ∧
   _bin_best_fit 0%nat w = (w, Return false)) ∧
  (let w := mkWorld (manager_4x4 "shelf" false [shelf_bin_low])
              (λ _, unplaced 2 3) in
   rotation (self w) = false ∧
   (2 <=? bin_x shelf_bin_low) && (3 <=? available_height shelf_bin_low)
   = false ∧
   shelf_candidate (unplaced 2 3) shelf_bin_low = Some 8 ∧
   shelf_scan (unplaced 2 3) (bins (self w)) = (Some 8, Some 0%nat) ∧
   _bin_best_fit 0%nat w = (w, Return false)).
Proof. by vm_compute. Qed.

(** *** Skyline: lowest placement, first seen *)

Lemma skyline_best_fit_minimal_first_witness :
  candidates (unplaced 2 1) [skyline_bin_a; skyline_bin_b]
  = [(0%nat, 3); (1%nat, 3); (1%nat, 5)] ∧
  ∃ l1 k y l2,
    candidates (unplaced 2 1) [skyline_bin_a; skyline_bin_b]
    = l1 ++ (k, y) :: l2 ∧
    Forall (λ d, y < d.2) l1 ∧
    Forall (λ d, y ≤ d.2) l2 ∧
    is_Some ([skyline_bin_a; skyline_bin_b] !! k) ∧
    _bin_best_fit 0%nat world_skyline_tie
    = insert_at k 0%nat world_skyline_tie.
Proof.
  split; [reflexivity|].
  exact (skyline_best_fit_minimal_first 0%nat world_skyline_tie
           eq_refl eq_refl).
Defined.

(** *** The bin counter *)

Lemma bin_count_always_zero_witness :
  ∃ m,
    __init__ 4 4 "bin_first_fit" "guillotine" "default" "default"
      true false true true = Return m ∧
    let w := (execute (add_items [0%nat] (mkWorld m (λ _, unplaced 5 1)))).1 in
    length (bins (self w)) = 2%nat ∧ bin_count (self w) = 0.
Proof.
  eexists. split; [reflexivity|].
  split; [reflexivity|].
  apply bin_count_always_zero.
  apply reach_execute, reach_add_items.
  apply (reach_init 4 4 "bin_first_fit" "guillotine" "default" "default"
           true false true true).
  reflexivity.
Defined.

(** *** First fit: the appended bin may refuse *)


(** *** The queue on items of different areas *)

Lemma add_items_stable_sort_witness :
  items (self (add_items [0; 1; 2; 3; 4]%nat world_mixed))
  = [4; 1; 2; 0; 3]%nat ∧
  [4; 1; 2; 0; 3]%nat ≡ₚ [0; 1; 2; 3; 4]%nat ∧
  descending (λ r, width (heap_mixed r) * height (heap_mixed r))
    [4; 1; 2; 0; 3]%nat.
Proof.
  split; [reflexivity|].
  destruct (add_items_stable_sort [0; 1; 2; 3; 4]%nat world_mixed)
    as [_ Hsorted].
  destruct (Hsorted eq_refl) as (Hperm & Hdesc & _).
  split; [exact Hperm|exact Hdesc].
Defined.

(** *** The execution loop *)

(** C9 (counterexample): the first item of the queue is oversize; [execute]
    ends with the oversize error after the call on it, and the policy is
    never called on the second item, which the bin would have taken. *)
Lemma execute_stops_at_first_raise :
  bin_sel_algo (self world_oversize_then_small) = Some BestFit ∧
  items (self world_oversize_then_small) = [0; 1]%nat ∧
  execute world_oversize_then_small
  = (world_oversize_then_small, Raise oversize) ∧
  (for_each (traced (policy_call BestFit)) [0; 1]%nat
     (world_oversize_then_small, [])).1.2 = [0%nat] ∧
  (_bin_best_fit 1%nat world_oversize_then_small).2 = Return true ∧
  sb_placed <$> bins (self (_bin_best_fit 1%nat world_oversize_then_small).1)
  = [[1%nat]] ∧
  ¬ every_item_handled BestFit world_oversize_then_small.
Proof.
  repeat split; try reflexivity.
  unfold every_item_handled. by vm_compute.
Qed.

Lemma execute_runs_policy_in_order_witness :
  execute world_first_fit_queue
  = for_each (policy_call FirstFit) [0; 1]%nat world_first_fit_queue ∧
  items (self (execute world_first_fit_queue).1) = [0; 1]%nat ∧
  for_each (traced (policy_call FirstFit)) [0; 1]%nat
    (world_first_fit_queue, [])
  = (((execute world_first_fit_queue).1, [0; 1]%nat), Return tt).
Proof.
  exact (execute_runs_policy_in_order world_first_fit_queue FirstFit eq_refl).
Defined.

(** *** Further runs on concrete bins *)

Lemma unknown_bin_algo_fails_at_execute_witness :
  ∃ m,
    __init__ 4 4 "bin_worst_fit" "shelf" "default" "default"
      true true true true = Return m ∧
    ∀ h batch,
      let w := add_items batch (mkWorld m h) in
      execute w
      = (w, match batch with
            | [] => Return tt
            | _ :: _ => Raise no_policy
            end).
Proof.
  apply (unknown_bin_algo_fails_at_execute 4 4 "bin_worst_fit" "shelf"
           "default" "default" true true true true).
  - discriminate.
  - discriminate.
  - by repeat constructor.
Defined.

Lemma oversize_error_sound_witness :
  _bin_best_fit 0%nat world_oversize_queued
  = (world_oversize_queued, Raise oversize) ∧
  fits_allowed 4 4 false (unplaced 5 1) = false.
Proof.
  apply (oversize_error_sound 0%nat world_oversize_queued).
  reflexivity.
Defined.

Lemma shelf_best_fit_smallest_area_witness :
  shelf_candidates (unplaced 2 2) [empty 4 4 false; shelf_bin_low]
  = [(0%nat, 16); (1%nat, 8)] ∧
  ∃ l1 k area l2,
    shelf_candidates (unplaced 2 2) [empty 4 4 false; shelf_bin_low]
    = l1 ++ (k, area) :: l2 ∧
    Forall (λ d, area < d.2) l1 ∧
    Forall (λ d, area ≤ d.2) l2 ∧
    area ≠ 0 ∧
    (∃ binn, [empty 4 4 false; shelf_bin_low] !! k = Some binn ∧
             shelf_candidate (unplaced 2 2) binn = Some area) ∧
    _bin_best_fit 0%nat world_two_shelf_bins
    = insert_at k 0%nat world_two_shelf_bins.
Proof.
  split; [reflexivity|].
  exact (shelf_best_fit_smallest_area 0%nat world_two_shelf_bins
           eq_refl eq_refl).
Defined.

Lemma rect_best_fit_targets_last_bin_witness :
  rect_candidates (unplaced 2 2) [bin_with_hole; empty 4 4 true]
  = [(0%nat, (2, 2)); (1%nat, (4, 4))] ∧
  ∃ l1 k r l2 last,
    rect_candidates (unplaced 2 2) [bin_with_hole; empty 4 4 true]
    = l1 ++ (k, r) :: l2 ∧
    Forall (λ d, rect_area r < rect_area d.2) l1 ∧
    Forall (λ d, rect_area r ≤ rect_area d.2) l2 ∧
    (∃ binn, [bin_with_hole; empty 4 4 true] !! k = Some binn ∧
             first_fitting_rect (unplaced 2 2) binn = Some r) ∧
    rect_scan (unplaced 2 2) [bin_with_hole; empty 4 4 true]
    = (Some r, Some k, Some last) ∧
    S last = 2%nat ∧
    _bin_best_fit 0%nat world_two_bins = insert_at last 0%nat world_two_bins.
Proof.
  split; [reflexivity|].
  exact (rect_best_fit_targets_last_bin 0%nat world_two_bins
           (or_introl eq_refl) eq_refl).
Defined.

Lemma reachable_well_configured_witness :
  ∃ m,
    __init__ 4 4 "bin_first_fit" "guillotine" "default" "default"
      true false true true = Return m ∧
    let w := (execute (add_items [0%nat] (mkWorld m (λ _, unplaced 5 1)))).1 in
    length (bins (self w)) = 2%nat ∧
    bins (self w) ≠ [] ∧
    algorithm (self w) ∈ recognized_names ∧
    ∃ fresh, _bin_factory (self w) = Return fresh.
Proof.
  eexists. split; [reflexivity|].
  split; [reflexivity|].
  apply reachable_well_configured.
  apply reach_execute, reach_add_items.
  apply (reach_init 4 4 "bin_first_fit" "guillotine" "default" "default"
           true false true true).
  reflexivity.
Defined.
